(** * GDIObject: the smart GDI object handle of nvdaHelper/common/GDIObject.h

    A shallow embedding of the class [GDIObject] and of the one external
    primitive it calls, [DeleteObject], followed by the properties of the
    wrapper: what is released, when, and what the conversions return. *)

From Stdlib Require Import ZArith List Bool Lia.
From stdpp Require Import base gmap sets list.

Local Open Scope Z_scope.

(** ** Handles *)

(** [HGDIOBJ] is a pointer-sized opaque value; it is kept as the integer
    value of the pointer, with [nullptr] the zero pointer. *)
Definition HGDIOBJ : Type := Z.

Definition nullptr : HGDIOBJ := 0.

(** [HRGN] is a distinct pointer type; a value of it carries the same
    address. *)
Record HRGN : Type := mkHRGN { HRGN_addr : Z }.

(** [static_cast<HRGN>(p)]: the address is kept, only the static type
    changes. *)
Definition static_cast_HRGN (p : HGDIOBJ) : HRGN := mkHRGN p.

(** [static_cast<bool>(p)]: a pointer converts to [true] unless it is
    null. *)
Definition static_cast_bool (p : HGDIOBJ) : bool := negb (p =? nullptr).

(** ** The world outside the wrapper *)

(** What a run leaves behind, in program order: the calls of the release
    primitive and the writes to the member [_hGDIObj]. *)
Inductive event : Type :=
| EvDeleteObject (h : HGDIOBJ)
| EvStore (h : HGDIOBJ).

(** The GDI subsystem as the wrapper sees it: the handles whose object is
    allocated, and the events so far. *)
Record World : Type := mkWorld {
  live : gset Z;
  trace : list event
}.

Definition record (e : event) (w : World) : World :=
  mkWorld (live w) (trace w ++ [e]).

(** Modelled from the spec: the release primitive [DeleteObject] is
    declared by windows.h, outside the repository. Calling it on a handle
    frees the object the handle names; on a handle that names nothing it
    changes nothing. Its result is ignored by every caller in the class. *)
Definition DeleteObject (h : HGDIOBJ) (w : World) : World :=
  mkWorld (live w ∖ {[h]}) (trace w ++ [EvDeleteObject h]).

(** The arguments of the calls of the release primitive, in order. *)
Fixpoint releases (t : list event) : list HGDIOBJ :=
  match t with
  | [] => []
  | EvDeleteObject h :: t' => h :: releases t'
  | EvStore _ :: t' => releases t'
  end.

(** The values written to the member, in order. *)
Fixpoint stores (t : list event) : list HGDIOBJ :=
  match t with
  | [] => []
  | EvDeleteObject _ :: t' => stores t'
  | EvStore h :: t' => h :: stores t'
  end.

(** ** The class *)

Record GDIObject : Type := mkGDIObject { _hGDIObj : HGDIOBJ }.

(** A member function runs on [*this] and the world, and returns a value
    with both updated. *)
Definition method (A : Type) : Type := GDIObject * World -> A * (GDIObject * World).

#[export] Instance method_ret : MRet method :=
  fun A (a : A) s => (a, s).

#[export] Instance method_bind : MBind method :=
  fun A B (k : A -> method B) (m : method A) s => let (a, s') := m s in k a s'.

Definition load_hGDIObj : method HGDIOBJ :=
  fun s => (_hGDIObj (fst s), s).

Definition store_hGDIObj (h : HGDIOBJ) : method unit :=
  fun s => (tt, (mkGDIObject h, record (EvStore h) (snd s))).

Definition call_DeleteObject (h : HGDIOBJ) : method unit :=
  fun s => (tt, (fst s, DeleteObject h (snd s))).

(** [GDIObject(HGDIOBJ h=nullptr): _hGDIObj(h) {}] *)
Definition constructor (h : HGDIOBJ) (w : World) : GDIObject * World :=
  (mkGDIObject h, record (EvStore h) w).

Definition default_constructor : World -> GDIObject * World :=
  constructor nullptr.

(** [void destroy()] *)
Definition destroy : method unit :=
  h ← load_hGDIObj;
  if static_cast_bool h
  then call_DeleteObject h;; store_hGDIObj nullptr
  else mret tt.

(** [GDIObject& operator=(HGDIOBJ h)]; the reference returned is [*this],
    the object of the final state. *)
Definition operator_assign (h : HGDIOBJ) : method unit :=
  destroy;;
  store_hGDIObj h.

(** [operator HGDIOBJ()] *)
Definition operator_HGDIOBJ : method HGDIOBJ :=
  load_hGDIObj.

(** [operator HRGN()] *)
Definition operator_HRGN : method HRGN :=
  h ← load_hGDIObj;
  mret (static_cast_HRGN h).

(** [operator bool()] *)
Definition operator_bool : method bool :=
  h ← load_hGDIObj;
  mret (static_cast_bool h).

(** [~GDIObject()]: the object is gone afterwards, the world remains. *)
Definition destructor (s : GDIObject * World) : World :=
  snd (snd (destroy s)).

(** The state a member function leaves, and the value it returns. *)
Definition exec {A : Type} (m : method A) (s : GDIObject * World) : GDIObject * World :=
  snd (m s).

Definition result {A : Type} (m : method A) (s : GDIObject * World) : A :=
  fst (m s).

Definition owned (s : GDIObject * World) : HGDIOBJ := _hGDIObj (fst s).

(** The events a step from [s] to [s'] added. *)
Definition emits (s s' : GDIObject * World) (evs : list event) : Prop :=
  trace (snd s') = trace (snd s) ++ evs.

Definition empty_world : World := mkWorld ∅ [].


(** The events between an earlier world and a later one. *)
Definition since (w w' : World) : list event :=
  drop (length (trace w)) (trace w').

(** ** One wrapper through its lifetime *)

(** The member functions a client may call between construction and
    destruction; the value a conversion returns is dropped here. *)
Inductive call : Type :=
| CallDestroy
| CallAssign (h : HGDIOBJ)
| CallHGDIOBJ
| CallHRGN
| CallBool.

Definition run_call (c : call) : method unit :=
  match c with
  | CallDestroy => destroy
  | CallAssign h => operator_assign h
  | CallHGDIOBJ => operator_HGDIOBJ;; mret tt
  | CallHRGN => operator_HRGN;; mret tt
  | CallBool => operator_bool;; mret tt
  end.

Fixpoint run_calls (cs : list call) : method unit :=
  match cs with
  | [] => mret tt
  | c :: cs' => run_call c;; run_calls cs'
  end.

(** [{ GDIObject w(h); cs... }]: construction, the calls, and the
    destructor at the end of the scope. *)
Definition lifetime (h : HGDIOBJ) (cs : list call) (w : World) : World :=
  destructor (exec (run_calls cs) (constructor h w)).

(** A call that hands no handle to the wrapper. *)
Definition hands_nothing (c : call) : bool :=
  match c with
  | CallAssign h => bool_decide (h = nullptr)
  | _ => true
  end.

(** The wrapper holds nothing, or what it holds is still allocated. *)
Definition owned_is_live (s : GDIObject * World) : Prop :=
  owned s ≠ nullptr → owned s ∈ live (snd s).

(** What a caller may hand over in [c] at state [s]: nothing, or a handle
    that is allocated and is not the one the wrapper holds already. *)
Definition hands_over_fresh (c : call) (s : GDIObject * World) : Prop :=
  match c with
  | CallAssign h => h = nullptr ∨ (h ∈ live (snd s) ∧ h ≠ owned s)
  | _ => True
  end.

Fixpoint all_fresh (cs : list call) (s : GDIObject * World) : Prop :=
  match cs with
  | [] => True
  | c :: cs' => hands_over_fresh c s ∧ all_fresh cs' (exec (run_call c) s)
  end.

(** ** The operations as the specification words them *)

(** release(): if an owned handle is present, invoke the release primitive
    on it, then clear the owned value to null; otherwise do nothing. *)
Definition release_spec : method unit :=
  fun s =>
    if decide (owned s = nullptr)
    then (tt, s)
    else (tt, (mkGDIObject nullptr,
               record (EvStore nullptr) (DeleteObject (owned s) (snd s)))).

(** Adopting a handle as the new owned value. *)
Definition adopt_spec (newHandle : HGDIOBJ) : method unit :=
  fun s => (tt, (mkGDIObject newHandle, record (EvStore newHandle) (snd s))).

(** assign(newHandle): release() followed by adopting newHandle. *)
Definition assign_spec (newHandle : HGDIOBJ) : method unit :=
  fun s => adopt_spec newHandle (snd (release_spec s)).

(** What reassignment from [h1] to [h2] is said to do at state [s]: one
    release call, for [h1], made before the write of [h2] to the member;
    no release call for [h2]; and [h2] owned at the end. *)
Definition reassigns (h1 h2 : HGDIOBJ) (s : GDIObject * World) : Prop :=
  let s' := exec (operator_assign h2) s in
  let evs := since (snd s) (snd s') in
  (releases evs = [h1])
  ∧ (∃ evs', evs = EvDeleteObject h1 :: evs' ∧ last evs' = Some (EvStore h2))
  ∧ (h2 ∉ releases evs)
  ∧ (owned s' = h2).

(** ** Several wrappers: what the class lets a client write *)

Inductive member : Type :=
| CopyConstructor
| CopyAssignment
| Constructor
| Destroy
| AssignHandle
| ConvertHGDIOBJ
| ConvertHRGN
| ConvertBool
| Destructor.

Inductive access : Type := Private | Public.

(** The two copy members stand under [private:], the rest under
    [public:]. *)
Definition access_of (m : member) : access :=
  match m with
  | CopyConstructor | CopyAssignment => Private
  | _ => Public
  end.

(** The two copy members are declared [=delete]. *)
Definition deleted (m : member) : bool :=
  match m with
  | CopyConstructor | CopyAssignment => true
  | _ => false
  end.

Definition callable (m : member) : bool :=
  match access_of m with
  | Public => negb (deleted m)
  | Private => false
  end.

(** Statements of a client over wrappers named by number. A handle
    argument is any value the client has, the result of a conversion of
    another wrapper included. *)
Inductive stmt : Type :=
| SConstruct (a : nat) (h : HGDIOBJ)
| SCopyConstruct (a b : nat)
| SCopyAssign (a b : nat)
| SCall (a : nat) (c : call)
| SDestruct (a : nat).

Definition member_of (st : stmt) : member :=
  match st with
  | SConstruct _ _ => Constructor
  | SCopyConstruct _ _ => CopyConstructor
  | SCopyAssign _ _ => CopyAssignment
  | SCall _ CallDestroy => Destroy
  | SCall _ (CallAssign _) => AssignHandle
  | SCall _ CallHGDIOBJ => ConvertHGDIOBJ
  | SCall _ CallHRGN => ConvertHRGN
  | SCall _ CallBool => ConvertBool
  | SDestruct _ => Destructor
  end.

(** One statement on the wrappers alive and the world; [None] when the
    statement is not a program: it names a member that cannot be called,
    declares a name twice, or uses a wrapper that is not alive. *)
Definition step (st : stmt) (σ : gmap nat GDIObject * World)
  : option (gmap nat GDIObject * World) :=
  if callable (member_of st) then
    match st with
    | SConstruct a h =>
        match σ.1 !! a with
        | Some _ => None
        | None => let s := constructor h σ.2 in Some (<[a := s.1]> σ.1, s.2)
        end
    | SCall a c =>
        match σ.1 !! a with
        | Some o => let s := exec (run_call c) (o, σ.2) in Some (<[a := s.1]> σ.1, s.2)
        | None => None
        end
    | SDestruct a =>
        match σ.1 !! a with
        | Some o => Some (delete a σ.1, destructor (o, σ.2))
        | None => None
        end
    | SCopyConstruct _ _ | SCopyAssign _ _ => None
    end
  else None.

Fixpoint run (p : list stmt) (σ : gmap nat GDIObject * World)
  : option (gmap nat GDIObject * World) :=
  match p with
  | [] => Some σ
  | st :: p' =>
      match step st σ with
      | Some σ' => run p' σ'
      | None => None
      end
  end.

(** Wrapper 0 owns the allocated handle 42 and wrapper 1 is empty. *)
Definition source_and_destination : gmap nat GDIObject * World :=
  (<[0%nat := mkGDIObject 42]> (<[1%nat := mkGDIObject nullptr]> ∅),
   mkWorld {[42]} []).

(** What statements do to the wrappers alive: a wrapper that owned a
    non-null handle owns it still, or the handle has been released. *)
Definition kept_or_released (m m' : gmap nat GDIObject) (evs : list event) : Prop :=
  ∀ (a : nat) (h : HGDIOBJ),
    h ≠ nullptr → m !! a = Some (mkGDIObject h) →
    m' !! a = Some (mkGDIObject h) ∨ h ∈ releases evs.

(** ** What a lifetime hands over, and the release discipline *)

(** The handles the calls hand to the wrapper, in order. *)
Fixpoint handed (cs : list call) : list HGDIOBJ :=
  match cs with
  | [] => []
  | CallAssign h :: cs' => h :: handed cs'
  | _ :: cs' => handed cs'
  end.

(** The handles of a list that are not null. *)
Definition non_null (hs : list HGDIOBJ) : list HGDIOBJ :=
  filter (λ h : Z, h ≠ nullptr) hs.

(** The events one call adds at state [s], read off [destroy] and
    [operator=]. *)
Definition destroy_events (s : GDIObject * World) : list event :=
  if decide (owned s = nullptr) then []
  else [EvDeleteObject (owned s); EvStore nullptr].

Definition call_events (c : call) (s : GDIObject * World) : list event :=
  match c with
  | CallDestroy => destroy_events s
  | CallAssign h => destroy_events s ++ [EvStore h]
  | CallHGDIOBJ | CallHRGN | CallBool => []
  end.

(** The value of the member after the writes of [t], from the value
    [cur]. *)
Fixpoint member_after (cur : HGDIOBJ) (t : list event) : HGDIOBJ :=
  match t with
  | [] => cur
  | EvStore h :: t' => member_after h t'
  | EvDeleteObject _ :: t' => member_after cur t'
  end.

(** The release discipline of a trace, from the member value [cur]: every
    release is of the value the member holds, that value is not null, and
    the very next event writes null to the member. *)
Fixpoint disciplined (cur : HGDIOBJ) (t : list event) : bool :=
  match t with
  | [] => true
  | EvStore h :: t' => disciplined h t'
  | EvDeleteObject h :: t' =>
      bool_decide (h = cur) && static_cast_bool h &&
      match t' with
      | EvStore h' :: t'' => bool_decide (h' = nullptr) && disciplined nullptr t''
      | _ => false
      end
  end.

(** ** Exclusive ownership among several wrappers *)

(** Every non-null handle a wrapper owns is allocated, and no other
    wrapper owns it. *)
Definition exclusive (m : gmap nat GDIObject) (L : gset Z) : Prop :=
  ∀ (a : nat) (h : HGDIOBJ),
    m !! a = Some (mkGDIObject h) → h ≠ nullptr →
    h ∈ L ∧ ∀ b, m !! b = Some (mkGDIObject h) → b = a.

(** A handle a client may hand to a wrapper: null, or an allocated handle
    that no wrapper owns. *)
Definition unowned (h : HGDIOBJ) (σ : gmap nat GDIObject * World) : Prop :=
  h = nullptr ∨ (h ∈ live σ.2 ∧ ∀ b, σ.1 !! b ≠ Some (mkGDIObject h)).

Definition hands_over_unowned (st : stmt) (σ : gmap nat GDIObject * World) : Prop :=
  match st with
  | SConstruct _ h => unowned h σ
  | SCall _ (CallAssign h) => unowned h σ
  | _ => True
  end.

(** Every statement of a program hands over an unowned handle, at the
    state it runs in. *)
Fixpoint all_unowned (p : list stmt) (σ : gmap nat GDIObject * World) : Prop :=
  match p with
  | [] => True
  | st :: p' =>
      hands_over_unowned st σ
      ∧ match step st σ with
        | Some σ' => all_unowned p' σ'
        | None => True
        end
  end.

(** ** Release since adoption *)

(** Reading a trace from its newest event back: whether the release
    primitive has been called on [h] after the last write of [h] to the
    member. *)
Fixpoint released_after_last_store (h : HGDIOBJ) (newest_first : list event) : bool :=
  match newest_first with
  | [] => false
  | EvStore h' :: r =>
      if decide (h' = h) then false else released_after_last_store h r
  | EvDeleteObject h' :: r =>
      if decide (h' = h) then true else released_after_last_store h r
  end.

(** Whether [h] has been released since the wrapper adopted it, that is
    since it was last written to the member, in the trace [t]. *)
Definition released_since_adopted (h : HGDIOBJ) (t : list event) : bool :=
  released_after_last_store h (reverse t).

(** ** Examples *)

Example destroy_42 :
  destroy (mkGDIObject 42, empty_world)
  = (tt, (mkGDIObject 0, mkWorld (∅ ∖ {[42]}) [EvDeleteObject 42; EvStore 0])).
Proof. reflexivity. Qed.

Example lifetime_7 :
  trace (lifetime 7 [CallBool; CallAssign 9; CallHRGN] empty_world)
  = [EvStore 7; EvDeleteObject 7; EvStore 0; EvStore 9; EvDeleteObject 9; EvStore 0].
Proof. reflexivity. Qed.

Example run_destroy_then_assign :
  (λ σ, (σ.1 !! 0%nat, σ.1 !! 1%nat, releases (trace σ.2))) <$>
    run [SCall 0%nat CallDestroy; SCall 1%nat (CallAssign 42)] source_and_destination
  = Some (Some (mkGDIObject 0), Some (mkGDIObject 42), [42]).
Proof. vm_compute. reflexivity. Qed.

Example disciplined_lifetime_7 :
  disciplined 0 (trace (lifetime 7 [CallBool; CallAssign 9; CallHRGN] empty_world)) = true
  ∧ disciplined 7 [EvDeleteObject 9; EvStore 0] = false
  ∧ disciplined 7 [EvDeleteObject 7; EvStore 7] = false
  ∧ non_null (7 :: handed [CallBool; CallAssign 0; CallAssign 9]) = [7; 9].
Proof. repeat split. Qed.

Example released_since_adopted_42 :
  released_since_adopted 42 [EvStore 42; EvDeleteObject 42; EvStore 0] = true
  ∧ released_since_adopted 42 [EvStore 42; EvDeleteObject 42; EvStore 0; EvStore 42] = false
  ∧ released_since_adopted 42 [EvStore 42; EvDeleteObject 7; EvStore 0] = false.
Proof. repeat split. Qed.

(** ** Facts about the primitives *)

Lemma static_cast_bool_true (h : HGDIOBJ) : static_cast_bool h = true ↔ h ≠ nullptr.
Proof.
  unfold static_cast_bool. rewrite negb_true_iff, Z.eqb_neq. reflexivity.
Qed.

Lemma static_cast_bool_false (h : HGDIOBJ) : static_cast_bool h = false ↔ h = nullptr.
Proof.
  unfold static_cast_bool. rewrite negb_false_iff, Z.eqb_eq. reflexivity.
Qed.

Lemma releases_app (t1 t2 : list event) :
  releases (t1 ++ t2) = releases t1 ++ releases t2.
Proof.
  induction t1 as [|[h|h] t1 IH]; simpl; [done | by rewrite IH | done].
Qed.

Lemma since_app (w w' : World) (evs : list event) :
  trace w' = trace w ++ evs → since w w' = evs.
Proof.
  intros E. unfold since. rewrite E. apply drop_app_length.
Qed.

Lemma since_refl (w : World) : since w w = [].
Proof. apply since_app. by rewrite app_nil_r. Qed.

(** ** What each member function does *)

Lemma destroy_null (w : World) :
  destroy (mkGDIObject nullptr, w) = (tt, (mkGDIObject nullptr, w)).
Proof. reflexivity. Qed.

Lemma destroy_owning (o : GDIObject) (w : World) :
  _hGDIObj o ≠ nullptr →
  destroy (o, w)
  = (tt, (mkGDIObject nullptr,
          mkWorld (live w ∖ {[_hGDIObj o]})
                  (trace w ++ [EvDeleteObject (_hGDIObj o); EvStore nullptr]))).
Proof.
  intros Hh. apply static_cast_bool_true in Hh.
  unfold destroy, mbind, method_bind, load_hGDIObj. simpl. rewrite Hh.
  unfold call_DeleteObject, store_hGDIObj, record, DeleteObject. simpl.
  by rewrite <- app_assoc.
Qed.

Lemma destroy_cases (s : GDIObject * World) :
  (owned s = nullptr ∧ destroy s = (tt, s))
  ∨ (owned s ≠ nullptr
     ∧ destroy s
       = (tt, (mkGDIObject nullptr,
               mkWorld (live s.2 ∖ {[owned s]})
                       (trace s.2 ++ [EvDeleteObject (owned s); EvStore nullptr])))).
Proof.
  destruct s as [[h] w]. unfold owned. simpl.
  destruct (decide (h = nullptr)) as [->|Hne].
  - left. split; [done | apply destroy_null].
  - right. split; [done | by apply (destroy_owning (mkGDIObject h) w)].
Qed.

Lemma operator_assign_unfold (h : HGDIOBJ) (s : GDIObject * World) :
  operator_assign h s = store_hGDIObj h (exec destroy s).
Proof.
  unfold operator_assign, exec, mbind, method_bind. by destruct (destroy s).
Qed.

Lemma destroy_twice (s : GDIObject * World) :
  exec destroy (exec destroy s) = exec destroy s.
Proof.
  unfold exec. destruct (destroy_cases s) as [[_ E]|[_ E]]; rewrite E; cbn [snd].
  - by rewrite E.
  - by rewrite destroy_null.
Qed.

Lemma destroy_trace (s : GDIObject * World) :
  trace (exec destroy s).2
  = trace s.2 ++ (if decide (owned s = nullptr) then []
                  else [EvDeleteObject (owned s); EvStore nullptr]).
Proof.
  unfold exec. destruct (destroy_cases s) as [[Hn ->]|[Hn ->]]; simpl;
    case_decide; try done. by rewrite app_nil_r.
Qed.

Lemma destroy_owned (s : GDIObject * World) : owned (exec destroy s) = nullptr.
Proof.
  unfold exec. by destruct (destroy_cases s) as [[Hn ->]|[Hn ->]].
Qed.

Lemma destroy_live (s : GDIObject * World) :
  live (exec destroy s).2
  = if decide (owned s = nullptr) then live s.2 else live s.2 ∖ {[owned s]}.
Proof.
  unfold exec. destruct (destroy_cases s) as [[Hn ->]|[Hn ->]]; simpl;
    by case_decide.
Qed.

(** ** Construction and destruction *)

(** C1. A wrapper constructed with [h] and destroyed with nothing in
    between calls the release primitive once, with [h], when [h] is not
    null, and not at all when [h] is null; the events of the whole lifetime
    are the write of [h] and, for a non-null [h], the release and the
    clearing write. *)
Theorem construct_then_destruct (h : HGDIOBJ) (w : World) :
  let w' := destructor (constructor h w) in
  releases (since w w') = (if decide (h = nullptr) then [] else [h])
  ∧ since w w' = EvStore h :: (if decide (h = nullptr) then []
                               else [EvDeleteObject h; EvStore nullptr]).
Proof.
  simpl. unfold destructor.
  assert (E : since w (destroy (constructor h w)).2.2
              = EvStore h :: (if decide (h = nullptr) then []
                              else [EvDeleteObject h; EvStore nullptr])).
  { apply since_app. change ((destroy (constructor h w)).2) with (exec destroy (constructor h w)).
    rewrite destroy_trace. unfold constructor, record, owned. simpl.
    by rewrite <- app_assoc. }
  split; [|exact E]. rewrite E. by case_decide.
Qed.

(** ** release() *)

(** C3. Two calls of [destroy] in a row make at most one call of the
    release primitive, and the second changes nothing; on a wrapper that
    owns no handle [destroy] changes neither the wrapper nor the world and
    makes no call. *)
Theorem destroy_idempotent (s : GDIObject * World) (w : World) :
  (length (releases (since s.2 (exec (destroy;; destroy) s).2)) ≤ 1)%nat
  ∧ exec (destroy;; destroy) s = exec destroy s
  ∧ releases (since (exec destroy s).2 (exec destroy (exec destroy s)).2) = []
  ∧ exec destroy (mkGDIObject nullptr, w) = (mkGDIObject nullptr, w)
  ∧ releases (since w (exec destroy (mkGDIObject nullptr, w)).2) = [].
Proof.
  assert (E : exec (destroy;; destroy) s = exec destroy s).
  { rewrite <- destroy_twice. unfold exec, mbind, method_bind.
    by destruct (destroy s). }
  split; [|split; [exact E|split; [|split]]].
  - rewrite E. rewrite (since_app _ _ _ (destroy_trace s)).
    case_decide; simpl; lia.
  - rewrite destroy_twice. by rewrite since_refl.
  - reflexivity.
  - unfold exec. rewrite destroy_null. simpl. by rewrite since_refl.
Qed.

(** ** assign as release followed by adoption *)

(** C6. [operator=(h)] and "release(), then adopt [h]" leave the same
    owned value and make the same calls of the release primitive, in the
    same order; they leave the same wrapper and world altogether. *)
Theorem assign_is_release_then_adopt (h : HGDIOBJ) (s : GDIObject * World) :
  let a := exec (operator_assign h) s in
  let b := exec (assign_spec h) s in
  owned a = owned b
  ∧ releases (since s.2 a.2) = releases (since s.2 b.2)
  ∧ a = b.
Proof.
  simpl. assert (E : exec (operator_assign h) s = exec (assign_spec h) s).
  { unfold exec at 1. rewrite operator_assign_unfold.
    unfold exec, assign_spec, release_spec, adopt_spec, store_hGDIObj.
    destruct (destroy_cases s) as [[Hn ->]|[Hn ->]]; case_decide; try done.
    simpl. unfold record, DeleteObject. simpl. by rewrite <- !app_assoc. }
  by rewrite E.
Qed.

(** ** The conversions *)

(** C8. [operator bool] is false exactly when the owned value is null and
    true exactly when it is not; it is false on a default-constructed
    wrapper and right after [destroy]; it changes neither the wrapper nor
    the world. *)
Theorem operator_bool_spec (s : GDIObject * World) (w : World) :
  (result operator_bool s = false ↔ owned s = nullptr)
  ∧ (result operator_bool s = true ↔ owned s ≠ nullptr)
  ∧ exec operator_bool s = s
  ∧ result operator_bool (default_constructor w) = false
  ∧ result operator_bool (exec destroy s) = false.
Proof.
  split; [|split; [|split; [|split]]].
  - apply static_cast_bool_false.
  - apply static_cast_bool_true.
  - reflexivity.
  - reflexivity.
  - apply static_cast_bool_false, destroy_owned.
Qed.

(** C9. [operator HGDIOBJ] returns the owned value and changes neither
    the wrapper nor the world. For a wrapper constructed with 42 it returns
    42 and [operator bool] returns true; [destroy] then calls the release
    primitive with 42, after which [operator bool] returns false and
    [operator HGDIOBJ] returns null. *)
Theorem operator_HGDIOBJ_spec (s : GDIObject * World) (w : World) :
  result operator_HGDIOBJ s = owned s
  ∧ exec operator_HGDIOBJ s = s
  ∧ (let s0 := constructor 42 w in
     let s1 := exec operator_bool (exec operator_HGDIOBJ s0) in
     let s2 := exec destroy s1 in
     result operator_HGDIOBJ s0 = 42
     ∧ result operator_bool (exec operator_HGDIOBJ s0) = true
     ∧ releases (since s1.2 s2.2) = [42]
     ∧ result operator_bool s2 = false
     ∧ result operator_HGDIOBJ s2 = nullptr).
Proof.
  split; [reflexivity|split; [reflexivity|]].
  cbv zeta. split; [reflexivity|split; [reflexivity|split; [|split]]].
  - apply f_equal with (f := releases) (y := [EvDeleteObject 42; EvStore nullptr]).
    apply since_app. apply (destroy_trace (constructor 42 w)).
  - apply static_cast_bool_false, destroy_owned.
  - apply destroy_owned.
Qed.

(** C10. [operator HRGN] returns the address [operator HGDIOBJ] returns,
    under the type [HRGN]; it returns the null region handle when no handle
    is owned; it changes neither the wrapper nor the world. *)
Theorem operator_HRGN_spec (s : GDIObject * World) (w : World) :
  HRGN_addr (result operator_HRGN s) = result operator_HGDIOBJ s
  ∧ result operator_HRGN s = static_cast_HRGN (owned s)
  ∧ result operator_HRGN (mkGDIObject nullptr, w) = mkHRGN nullptr
  ∧ exec operator_HRGN s = s
  ∧ exec operator_HRGN s = exec operator_HGDIOBJ s.
Proof. repeat split. Qed.

(** ** Reassignment *)

Lemma assign_owned (h : HGDIOBJ) (s : GDIObject * World) :
  owned (exec (operator_assign h) s) = h.
Proof. unfold exec. by rewrite operator_assign_unfold. Qed.

Lemma assign_trace (h : HGDIOBJ) (s : GDIObject * World) :
  trace (exec (operator_assign h) s).2
  = trace s.2 ++ (if decide (owned s = nullptr) then [EvStore h]
                  else [EvDeleteObject (owned s); EvStore nullptr; EvStore h]).
Proof.
  unfold exec at 1. rewrite operator_assign_unfold.
  unfold store_hGDIObj, record. cbn [fst snd trace].
  rewrite destroy_trace. rewrite <- app_assoc. by case_decide.
Qed.

Lemma assign_live (h : HGDIOBJ) (s : GDIObject * World) :
  live (exec (operator_assign h) s).2 = live (exec destroy s).2.
Proof. unfold exec at 1. by rewrite operator_assign_unfold. Qed.

(** C2, as amended. On a wrapper that owns a non-null [h1], [operator=(h2)]
    with [h2] another value than [h1] calls the release primitive once,
    with [h1], before [h2] is written to the member; it makes no call with
    [h2]; and the wrapper owns [h2] afterwards. *)
Theorem assign_new_handle (h1 h2 : HGDIOBJ) (s : GDIObject * World) :
  owned s = h1 → h1 ≠ nullptr → h2 ≠ h1 → reassigns h1 h2 s.
Proof.
  intros Ho Hn Hd. unfold reassigns. cbv zeta.
  rewrite (since_app _ _ _ (assign_trace h2 s)), assign_owned, Ho.
  case_decide; [done|]. cbn [releases].
  split; [done|split; [|split; [|done]]].
  - by exists [EvStore nullptr; EvStore h2].
  - rewrite list_elem_of_singleton. done.
Qed.

Lemma assign_new_handle_witness :
  reassigns 42 7 (constructor 42 empty_world).
Proof.
  apply (assign_new_handle 42 7 (constructor 42 empty_world)).
  - reflexivity.
  - discriminate.
  - discriminate.
Defined.

(** C2, as stated, fails when the value assigned is the value owned: the
    one release call of [operator=(42)] on a wrapper owning 42 is a call
    with the assigned value. *)
Lemma assign_same_handle_releases_it :
  let s := constructor 42 (mkWorld {[42]} []) in
  (owned s = 42) ∧ (42 ≠ nullptr)
  ∧ (releases (since s.2 (exec (operator_assign 42) s).2) = [42])
  ∧ (¬ reassigns 42 42 s).
Proof.
  cbv zeta.
  assert (E : releases (since (constructor 42 (mkWorld {[42]} [])).2
                 (exec (operator_assign 42) (constructor 42 (mkWorld {[42]} []))).2)
              = [42]).
  { by rewrite (since_app _ _ _ (assign_trace 42 _)). }
  split; [reflexivity|split; [discriminate|split; [exact E|]]].
  unfold reassigns. cbv zeta. rewrite E.
  intros (_ & _ & Hnot & _). apply Hnot. by apply list_elem_of_singleton.
Qed.

(** ** The owned handle is allocated *)

Lemma exec_run_calls_cons (c : call) (cs : list call) (s : GDIObject * World) :
  exec (run_calls (c :: cs)) s = exec (run_calls cs) (exec (run_call c) s).
Proof.
  unfold exec. cbn [run_calls]. unfold mbind, method_bind.
  by destruct (run_call c s).
Qed.

Lemma exec_conversion (c : call) (s : GDIObject * World) :
  c = CallHGDIOBJ ∨ c = CallHRGN ∨ c = CallBool → exec (run_call c) s = s.
Proof. by intros [->|[->| ->]]. Qed.

Lemma call_keeps_owned_live (c : call) (s : GDIObject * World) :
  owned_is_live s → hands_over_fresh c s → owned_is_live (exec (run_call c) s).
Proof.
  intros Hs Hc. destruct c as [|h| | |];
    try (rewrite exec_conversion; [done | solve [auto]]); cbn [run_call].
  - intros Ho. by rewrite destroy_owned in Ho.
  - unfold owned_is_live. rewrite assign_owned, assign_live, destroy_live.
    intros Hh. destruct Hc as [->|[Hl Hd]]; [done|].
    case_decide; [done|]. set_solver.
Qed.

(** As long as no call hands the wrapper the handle it already holds, and
    every handle handed over is allocated, what the wrapper holds is
    allocated. *)
Lemma calls_keep_owned_live (cs : list call) (s : GDIObject * World) :
  owned_is_live s → all_fresh cs s → owned_is_live (exec (run_calls cs) s).
Proof.
  revert s. induction cs as [|c cs IH]; intros s Hs Hcs.
  - exact Hs.
  - destruct Hcs as [Hc Hcs]. rewrite exec_run_calls_cons.
    apply IH; [by apply call_keeps_owned_live | exact Hcs].
Qed.


(** ** What one call releases *)

(** A call adds events to the trace and frees exactly the handles it
    releases. It releases nothing, and then the owned value is kept unless
    the wrapper was empty; or it releases the one non-null handle the
    wrapper owned. *)
Lemma run_call_effect (c : call) (s : GDIObject * World) :
  ∃ evs,
    trace (exec (run_call c) s).2 = trace s.2 ++ evs
    ∧ live (exec (run_call c) s).2 = live s.2 ∖ list_to_set (releases evs)
    ∧ ((releases evs = []
        ∧ (owned (exec (run_call c) s) = owned s ∨ owned s = nullptr))
       ∨ (releases evs = [owned s] ∧ owned s ≠ nullptr)).
Proof.
  destruct c as [|h| | |];
    try (rewrite !exec_conversion by auto; exists []; rewrite app_nil_r;
         cbn [releases list_to_set]; rewrite difference_empty_L;
         split; [reflexivity|split; [reflexivity|left; split; [reflexivity|by left]]]);
    cbn [run_call].
  - rewrite destroy_trace, destroy_live, destroy_owned.
    destruct (decide (owned s = nullptr)) as [Hn|Hn]; eexists; (split; [done|]);
      cbn [releases list_to_set].
    + rewrite difference_empty_L. split; [done|]. left. auto.
    + rewrite union_empty_r_L. split; [done|]. right. auto.
  - rewrite assign_trace, assign_live, destroy_live, assign_owned.
    destruct (decide (owned s = nullptr)) as [Hn|Hn]; eexists; (split; [done|]);
      cbn [releases list_to_set].
    + rewrite difference_empty_L. split; [done|]. left. auto.
    + rewrite union_empty_r_L. split; [done|]. right. auto.
Qed.

Lemma run_call_hands_nothing (c : call) (s : GDIObject * World) :
  owned s = nullptr → hands_nothing c = true →
  owned (exec (run_call c) s) = nullptr.
Proof.
  intros Hn Hc. destruct c as [|h| | |];
    try (rewrite exec_conversion; [done | solve [auto]]); cbn [run_call].
  - apply destroy_owned.
  - rewrite assign_owned. cbn in Hc. by apply bool_decide_eq_true in Hc.
Qed.

Lemma run_calls_never_release_null (cs : list call) (s : GDIObject * World) :
  ∃ evs, trace (exec (run_calls cs) s).2 = trace s.2 ++ evs
         ∧ nullptr ∉ releases evs.
Proof.
  revert s. induction cs as [|c cs IH]; intros s.
  - exists []. split; [by rewrite app_nil_r | by apply not_elem_of_nil].
  - rewrite exec_run_calls_cons.
    destruct (run_call_effect c s) as (e1 & T1 & _ & H1).
    destruct (IH (exec (run_call c) s)) as (e2 & T2 & H2).
    exists (e1 ++ e2). rewrite T2, T1, <- app_assoc. split; [done|].
    rewrite releases_app, elem_of_app. intros [Hin|Hin]; [|done].
    destruct H1 as [[E _]|[E Hne]]; rewrite E in Hin.
    + by apply not_elem_of_nil in Hin.
    + apply list_elem_of_singleton in Hin. by apply Hne.
Qed.

Lemma run_calls_empty_wrapper (cs : list call) (s : GDIObject * World) :
  owned s = nullptr → forallb hands_nothing cs = true →
  ∃ evs, trace (exec (run_calls cs) s).2 = trace s.2 ++ evs
         ∧ releases evs = []
         ∧ owned (exec (run_calls cs) s) = nullptr.
Proof.
  revert s. induction cs as [|c cs IH]; intros s Hn Hcs.
  - exists []. by rewrite app_nil_r.
  - rewrite exec_run_calls_cons. cbn in Hcs. apply andb_true_iff in Hcs as [Hc Hcs].
    destruct (run_call_effect c s) as (e1 & T1 & _ & H1).
    pose proof (run_call_hands_nothing c s Hn Hc) as Hn'.
    destruct (IH (exec (run_call c) s) Hn' Hcs) as (e2 & T2 & R2 & O2).
    exists (e1 ++ e2). rewrite T2, T1, <- app_assoc, releases_app, R2.
    split; [done|split; [|done]].
    destruct H1 as [[E _]|[_ Hne]]; [by rewrite E | done].
Qed.

(** The events of a lifetime: the constructor's write, the events of the
    calls, and the destructor's release when a handle is owned at the
    end. *)
Lemma lifetime_since (h : HGDIOBJ) (cs : list call) (w : World) (evs : list event) :
  let s := exec (run_calls cs) (constructor h w) in
  trace s.2 = trace (constructor h w).2 ++ evs →
  since w (lifetime h cs w)
  = EvStore h :: evs ++ (if decide (owned s = nullptr) then []
                         else [EvDeleteObject (owned s); EvStore nullptr]).
Proof.
  cbv zeta. intros T. apply since_app. unfold lifetime, destructor.
  change (trace (exec destroy (exec (run_calls cs) (constructor h w))).2
          = trace w ++ EvStore h :: evs
              ++ (if decide (owned (exec (run_calls cs) (constructor h w)) = nullptr)
                  then [] else [EvDeleteObject (owned (exec (run_calls cs) (constructor h w)));
                                EvStore nullptr])).
  rewrite destroy_trace, T. unfold constructor, record. cbn [snd trace].
  by rewrite <- !app_assoc.
Qed.

(** ** No release of null *)

(** C7. Over a whole lifetime (construction with any handle, any calls,
    destruction) the release primitive is never called with null; and a
    default-constructed wrapper that is handed no handle afterwards makes
    no call of the release primitive at all, its destruction included. *)
Theorem never_releases_null (h : HGDIOBJ) (cs : list call) (w : World) :
  (nullptr ∉ releases (since w (lifetime h cs w)))
  ∧ (releases (since w (destructor (default_constructor w))) = [])
  ∧ (forallb hands_nothing cs = true →
     releases (since w (lifetime nullptr cs w)) = []).
Proof.
  assert (Hquiet : ∀ cs', forallb hands_nothing cs' = true →
            releases (since w (lifetime nullptr cs' w)) = []).
  { intros cs' Hcs.
    destruct (run_calls_empty_wrapper cs' (constructor nullptr w) eq_refl Hcs)
      as (e1 & T1 & R1 & O1).
    rewrite (lifetime_since nullptr cs' w e1 T1). cbn [releases].
    rewrite releases_app, R1.
    by destruct (decide (owned (exec (run_calls cs') (constructor nullptr w)) = nullptr)). }
  split; [|split].
  - destruct (run_calls_never_release_null cs (constructor h w)) as (e1 & T1 & H1).
    rewrite (lifetime_since h cs w e1 T1). cbn [releases].
    rewrite releases_app, elem_of_app. intros [Hin|Hin]; [done|].
    destruct (decide (owned (exec (run_calls cs) (constructor h w)) = nullptr)) as [Hn|Hn].
    + by apply not_elem_of_nil in Hin.
    + cbn in Hin. apply list_elem_of_singleton in Hin. by apply Hn.
  - exact (Hquiet [] eq_refl).
  - apply Hquiet.
Qed.

Lemma never_releases_null_witness :
  releases (since empty_world
              (lifetime nullptr [CallBool; CallAssign nullptr; CallDestroy] empty_world))
  = [].
Proof.
  apply (never_releases_null 7 [CallBool; CallAssign nullptr; CallDestroy] empty_world).
  reflexivity.
Defined.

(** ** Several wrappers: copying and transfer *)

Lemma callable_call (a : nat) (c : call) : callable (member_of (SCall a c)) = true.
Proof. by destruct c. Qed.

Lemma GDIObject_eta (s : GDIObject * World) : s.1 = mkGDIObject (owned s).
Proof. by destruct s as [[h] w]. Qed.

Lemma step_effect (st : stmt) (σ σ' : gmap nat GDIObject * World) :
  step st σ = Some σ' →
  ∃ evs,
    trace σ'.2 = trace σ.2 ++ evs
    ∧ live σ'.2 = live σ.2 ∖ list_to_set (releases evs)
    ∧ kept_or_released σ.1 σ'.1 evs.
Proof.
  destruct st as [a h|a b|a b|a c|a]; unfold step;
    rewrite ?callable_call; cbn [member_of callable access_of deleted negb];
    try discriminate.
  - destruct (σ.1 !! a) as [o|] eqn:Ha; [discriminate|].
    intros [= <-]. exists [EvStore h]. cbn [fst snd constructor record trace live].
    split; [done|]. cbn [releases list_to_set]. rewrite difference_empty_L.
    split; [done|]. intros a0 h0 _ Ha0. left.
    rewrite lookup_insert_ne; [done|]. congruence.
  - destruct (σ.1 !! a) as [o|] eqn:Ha; [|discriminate].
    intros [= <-]. cbn [fst snd].
    destruct (run_call_effect c (o, σ.2)) as (evs & T & L & H).
    exists evs. split; [exact T|split; [exact L|]].
    intros a0 h0 Hn Ha0. destruct (decide (a0 = a)) as [->|Hne].
    + rewrite lookup_insert_eq. rewrite Ha in Ha0. injection Ha0 as ->.
      change (owned (mkGDIObject h0, σ.2)) with h0 in H.
      destruct H as [[_ [Ho|Ho]]|[E _]].
      * left. by rewrite GDIObject_eta, Ho.
      * done.
      * right. rewrite E. by apply list_elem_of_singleton.
    + left. by rewrite lookup_insert_ne.
  - destruct (σ.1 !! a) as [o|] eqn:Ha; [|discriminate].
    intros [= <-]. cbn [fst snd]. unfold destructor.
    change ((destroy (o, σ.2)).2) with (exec destroy (o, σ.2)).
    rewrite destroy_trace, destroy_live. cbn [snd].
    destruct (decide (owned (o, σ.2) = nullptr)) as [Hnull|Hnull]; eexists;
      (split; [done|]); cbn [releases list_to_set].
    + rewrite difference_empty_L. split; [done|].
      intros a0 h0 Hn Ha0. destruct (decide (a0 = a)) as [->|Hne].
      * rewrite Ha in Ha0. injection Ha0 as ->. done.
      * left. by rewrite lookup_delete_ne.
    + rewrite union_empty_r_L. split; [done|].
      intros a0 h0 Hn Ha0. destruct (decide (a0 = a)) as [->|Hne].
      * right. rewrite Ha in Ha0. injection Ha0 as ->.
        by apply list_elem_of_singleton.
      * left. by rewrite lookup_delete_ne.
Qed.

Lemma step_frame (st : stmt) (σ σ' : gmap nat GDIObject * World) :
  step st σ = Some σ' → ∃ a, ∀ b, b ≠ a → σ'.1 !! b = σ.1 !! b.
Proof.
  destruct st as [a h|a b|a b|a c|a]; unfold step;
    rewrite ?callable_call; cbn [member_of callable access_of deleted negb];
    try discriminate.
  - destruct (σ.1 !! a); [discriminate|]. intros [= <-]. exists a.
    intros b Hb. cbn [fst]. by rewrite lookup_insert_ne.
  - destruct (σ.1 !! a); [|discriminate]. intros [= <-]. exists a.
    intros b Hb. cbn [fst]. by rewrite lookup_insert_ne.
  - destruct (σ.1 !! a); [|discriminate]. intros [= <-]. exists a.
    intros b Hb. cbn [fst]. by rewrite lookup_delete_ne.
Qed.

Lemma run_effect (p : list stmt) (σ σ' : gmap nat GDIObject * World) :
  run p σ = Some σ' →
  ∃ evs,
    trace σ'.2 = trace σ.2 ++ evs
    ∧ live σ'.2 = live σ.2 ∖ list_to_set (releases evs)
    ∧ kept_or_released σ.1 σ'.1 evs.
Proof.
  revert σ. induction p as [|st p IH]; intros σ; cbn [run].
  - intros [= <-]. exists []. rewrite app_nil_r. cbn [releases list_to_set].
    rewrite difference_empty_L. split; [done|split; [done|]].
    intros a h _ Ha. by left.
  - destruct (step st σ) as [σ1|] eqn:Hst; [|discriminate]. intros Hrun.
    destruct (step_effect st σ σ1 Hst) as (e1 & T1 & L1 & K1).
    destruct (IH σ1 Hrun) as (e2 & T2 & L2 & K2).
    exists (e1 ++ e2). rewrite T2, T1, L2, L1, <- app_assoc, releases_app.
    split; [done|]. rewrite list_to_set_app_L, difference_difference_l_L.
    split; [done|].
    intros a h Hn Ha. rewrite releases_app, elem_of_app.
    destruct (K1 a h Hn Ha) as [Ha1|Hin]; [|by auto].
    destruct (K2 a h Hn Ha1) as [Ha2|Hin]; by auto.
Qed.

(** A wrapper that owned a non-null handle and does not own it any more:
    the handle has been released and is not allocated. *)
Lemma lost_handle_released (p : list stmt) (σ σ' : gmap nat GDIObject * World)
    (a : nat) (h : HGDIOBJ) :
  h ≠ nullptr → σ.1 !! a = Some (mkGDIObject h) → run p σ = Some σ' →
  σ'.1 !! a ≠ Some (mkGDIObject h) →
  h ∈ releases (since σ.2 σ'.2) ∧ h ∉ live σ'.2.
Proof.
  intros Hn Ha Hrun Hlost.
  destruct (run_effect p σ σ' Hrun) as (evs & T & L & K).
  rewrite (since_app _ _ _ T), L.
  destruct (K a h Hn Ha) as [Hkept|Hin]; [done|].
  split; [done|]. rewrite elem_of_difference, elem_of_list_to_set. by intros [_ Hout].
Qed.

(** C5, as amended. A wrapper cannot be copied: the copy constructor and
    the copy assignment are private and deleted, and a statement that names
    one is no program. There is no transfer of ownership either: every
    statement changes one wrapper only, and a wrapper that owned a non-null
    handle and owns it no longer has had the release primitive called on
    it, after which the handle is not allocated. *)
Theorem no_copy_no_transfer :
  (callable CopyConstructor = false ∧ callable CopyAssignment = false)
  ∧ (∀ a b σ, step (SCopyConstruct a b) σ = None ∧ step (SCopyAssign a b) σ = None)
  ∧ (∀ st σ σ', step st σ = Some σ' → ∃ a, ∀ b, b ≠ a → σ'.1 !! b = σ.1 !! b)
  ∧ (∀ p σ σ' a h,
       h ≠ nullptr → σ.1 !! a = Some (mkGDIObject h) → run p σ = Some σ' →
       σ'.1 !! a ≠ Some (mkGDIObject h) →
       h ∈ releases (since σ.2 σ'.2) ∧ h ∉ live σ'.2).
Proof.
  split; [by split|split; [by split|split]].
  - apply step_frame.
  - apply lost_handle_released.
Qed.

Lemma no_copy_no_transfer_witness :
  42 ∈ releases (since source_and_destination.2
                   (<[0%nat := mkGDIObject nullptr]> source_and_destination.1,
                    mkWorld ({[42]} ∖ {[42]}) [EvDeleteObject 42; EvStore nullptr]).2)
  ∧ 42 ∉ live (<[0%nat := mkGDIObject nullptr]> source_and_destination.1,
               mkWorld ({[42]} ∖ {[42]}) [EvDeleteObject 42; EvStore nullptr]).2.
Proof.
  apply (proj2 (proj2 (proj2 no_copy_no_transfer))
           [SCall 0%nat CallDestroy] source_and_destination _ 0%nat 42).
  - discriminate.
  - reflexivity.
  - reflexivity.
  - cbn [fst]. rewrite lookup_insert_eq. discriminate.
Defined.

(** C5, as stated, fails: with wrapper 0 owning the allocated handle 42
    and wrapper 1 empty, no program of wrapper operations leaves wrapper 0
    empty and wrapper 1 owning 42 with 42 still allocated. *)
Lemma no_move_from_source_to_destination :
  ¬ ∃ p σ',
      run p source_and_destination = Some σ'
      ∧ σ'.1 !! 0%nat = Some (mkGDIObject nullptr)
      ∧ σ'.1 !! 1%nat = Some (mkGDIObject 42)
      ∧ 42 ∈ live σ'.2.
Proof.
  intros (p & σ' & Hrun & Hsrc & _ & Hlive).
  destruct (lost_handle_released p source_and_destination σ' 0%nat 42) as [_ Hdead].
  - discriminate.
  - reflexivity.
  - exact Hrun.
  - rewrite Hsrc. discriminate.
  - by apply Hdead.
Qed.

(** ** The events of a call, and what they add up to *)

Lemma non_null_cons (h : HGDIOBJ) (hs : list HGDIOBJ) :
  non_null (h :: hs) = (if decide (h = nullptr) then [] else [h]) ++ non_null hs.
Proof.
  unfold non_null. destruct (decide (h = nullptr)) as [Hn|Hn].
  - by rewrite filter_cons_False by (intros Hne; by apply Hne).
  - by rewrite filter_cons_True.
Qed.

Lemma releases_destroy_events (s : GDIObject * World) :
  releases (destroy_events s) = non_null [owned s].
Proof.
  rewrite non_null_cons. unfold destroy_events.
  by destruct (decide (owned s = nullptr)).
Qed.

Lemma member_after_app (cur : HGDIOBJ) (t1 t2 : list event) :
  member_after cur (t1 ++ t2) = member_after (member_after cur t1) t2.
Proof.
  revert cur. induction t1 as [|[h|h] t1 IH]; intros cur; cbn; by rewrite ?IH.
Qed.

Lemma disciplined_app (cur : HGDIOBJ) (t1 t2 : list event) :
  disciplined cur t1 = true → disciplined (member_after cur t1) t2 = true →
  disciplined cur (t1 ++ t2) = true.
Proof.
  revert cur. induction t1 as [|[h|h] t1 IH]; intros cur H1 H2.
  - exact H2.
  - cbn [disciplined] in H1. apply andb_true_iff in H1 as [Hhead Htail].
    destruct t1 as [|[h'|h'] t1']; try discriminate.
    apply andb_true_iff in Htail as [Hnull Htail].
    cbn [app disciplined]. rewrite Hhead, Hnull. cbn [andb].
    apply bool_decide_eq_true in Hnull. subst h'.
    exact (IH cur Htail H2).
  - cbn [app disciplined]. apply (IH h); [exact H1 | exact H2].
Qed.

Lemma disciplined_destroy_events (s : GDIObject * World) :
  disciplined (owned s) (destroy_events s) = true
  ∧ member_after (owned s) (destroy_events s) = nullptr.
Proof.
  unfold destroy_events. destruct (decide (owned s = nullptr)) as [Hn|Hn].
  - by split.
  - cbn [disciplined member_after].
    rewrite !bool_decide_eq_true_2 by done.
    apply static_cast_bool_true in Hn. by rewrite Hn.
Qed.

Lemma run_call_trace (c : call) (s : GDIObject * World) :
  trace (exec (run_call c) s).2 = trace s.2 ++ call_events c s.
Proof.
  destruct c as [|h| | |];
    try (rewrite exec_conversion by auto; cbn [call_events]; by rewrite app_nil_r);
    cbn [run_call call_events].
  - apply destroy_trace.
  - rewrite assign_trace. unfold destroy_events.
    by destruct (decide (owned s = nullptr)).
Qed.

Lemma run_call_owned (c : call) (s : GDIObject * World) :
  owned (exec (run_call c) s) = member_after (owned s) (call_events c s).
Proof.
  destruct c as [|h| | |];
    try (rewrite exec_conversion by auto; reflexivity);
    cbn [run_call call_events].
  - rewrite destroy_owned. symmetry. apply disciplined_destroy_events.
  - rewrite assign_owned, member_after_app. reflexivity.
Qed.

Lemma run_call_live (c : call) (s : GDIObject * World) :
  live (exec (run_call c) s).2 = live s.2 ∖ list_to_set (releases (call_events c s)).
Proof.
  destruct (run_call_effect c s) as (evs & T & L & _).
  rewrite run_call_trace in T. apply app_inv_head in T. by rewrite T.
Qed.

Lemma run_call_disciplined (c : call) (s : GDIObject * World) :
  disciplined (owned s) (call_events c s) = true.
Proof.
  destruct c as [|h| | |]; cbn [call_events]; try reflexivity.
  - apply disciplined_destroy_events.
  - apply disciplined_app; [apply disciplined_destroy_events | reflexivity].
Qed.

Lemma run_call_handed (c : call) (cs : list call) (s : GDIObject * World) :
  releases (call_events c s) ++ non_null (owned (exec (run_call c) s) :: handed cs)
  = non_null (owned s :: handed (c :: cs)).
Proof.
  destruct c as [|h| | |];
    try (rewrite exec_conversion by auto; reflexivity);
    cbn [run_call call_events handed].
  - rewrite destroy_owned, releases_destroy_events.
    rewrite (non_null_cons nullptr), (non_null_cons (owned s) []),
      (non_null_cons (owned s) (handed cs)).
    destruct (decide (nullptr = nullptr)); [|done].
    by rewrite <- app_assoc.
  - rewrite assign_owned, releases_app, releases_destroy_events.
    rewrite (non_null_cons (owned s) []), (non_null_cons (owned s) (h :: handed cs)).
    cbn [releases]. by rewrite !app_nil_r.
Qed.

(** The calls of a run, accounted for: the events added, what they free,
    whom they release, and the member they leave. *)
Lemma run_calls_account (cs : list call) (s : GDIObject * World) :
  ∃ evs,
    trace (exec (run_calls cs) s).2 = trace s.2 ++ evs
    ∧ live (exec (run_calls cs) s).2 = live s.2 ∖ list_to_set (releases evs)
    ∧ releases evs ++ non_null [owned (exec (run_calls cs) s)]
      = non_null (owned s :: handed cs)
    ∧ disciplined (owned s) evs = true
    ∧ member_after (owned s) evs = owned (exec (run_calls cs) s).
Proof.
  revert s. induction cs as [|c cs IH]; intros s.
  - exists []. rewrite app_nil_r. cbn [releases list_to_set].
    by rewrite difference_empty_L.
  - rewrite exec_run_calls_cons.
    destruct (IH (exec (run_call c) s)) as (e2 & T2 & L2 & R2 & D2 & M2).
    exists (call_events c s ++ e2).
    rewrite T2, L2, run_call_trace, run_call_live, <- app_assoc.
    rewrite releases_app, list_to_set_app_L, difference_difference_l_L.
    split; [done|split; [done|split; [|split]]].
    + rewrite <- run_call_handed, <- app_assoc. f_equal.
      rewrite R2. reflexivity.
    + apply disciplined_app; [apply run_call_disciplined|].
      by rewrite <- run_call_owned.
    + by rewrite member_after_app, <- run_call_owned.
Qed.

(** ** A whole lifetime *)

(** X1. Over a lifetime (construction with [h], any calls, destruction)
    the release primitive is called exactly on the non-null handles handed
    to the wrapper, by the constructor and by [operator=], once per handing
    over and in that order: none is left unreleased and none is released
    twice. *)
Theorem lifetime_releases_handed (h : HGDIOBJ) (cs : list call) (w : World) :
  releases (since w (lifetime h cs w)) = non_null (h :: handed cs).
Proof.
  destruct (run_calls_account cs (constructor h w)) as (evs & T & _ & R & _ & _).
  rewrite (lifetime_since h cs w evs T). cbn [releases].
  rewrite releases_app.
  change (owned (constructor h w)) with h in R. rewrite <- R. f_equal.
  rewrite non_null_cons.
  by destruct (decide (owned (exec (run_calls cs) (constructor h w)) = nullptr)).
Qed.

(** X2. At the end of a lifetime the handles still allocated are those
    allocated at its start less the non-null handles handed to the wrapper:
    each of them is freed and no other handle is. *)
Theorem lifetime_frees_handed (h : HGDIOBJ) (cs : list call) (w : World) :
  live (lifetime h cs w) = live w ∖ list_to_set (non_null (h :: handed cs)).
Proof.
  destruct (run_calls_account cs (constructor h w)) as (evs & _ & L & R & _ & _).
  unfold lifetime, destructor.
  change ((destroy (exec (run_calls cs) (constructor h w))).2)
    with (exec destroy (exec (run_calls cs) (constructor h w))).
  rewrite destroy_live, L.
  change (owned (constructor h w)) with h in R. rewrite <- R.
  rewrite list_to_set_app_L, non_null_cons. cbn [constructor snd record live].
  destruct (decide (owned (exec (run_calls cs) (constructor h w)) = nullptr)).
  - change (list_to_set ([] ++ non_null [])) with (∅ : gset Z).
    by rewrite union_empty_r_L.
  - rewrite <- difference_difference_l_L. f_equal.
    change (non_null []) with (@nil HGDIOBJ). cbn [app list_to_set].
    by rewrite union_empty_r_L.
Qed.

(** X3. The trace of a lifetime keeps the release discipline: every call
    of the release primitive is made on the value the member holds at that
    point, that value is not null, and the event right after the call is
    the write of null to the member. *)
Theorem lifetime_disciplined (h cur : HGDIOBJ) (cs : list call) (w : World) :
  disciplined cur (since w (lifetime h cs w)) = true.
Proof.
  destruct (run_calls_account cs (constructor h w)) as (evs & T & _ & _ & D & M).
  rewrite (lifetime_since h cs w evs T). cbn [disciplined].
  change (owned (constructor h w)) with h in D, M.
  apply disciplined_app; [exact D|]. rewrite M.
  apply (disciplined_destroy_events (exec (run_calls cs) (constructor h w))).
Qed.

(** ** Handles handed over and the handle owned *)

Lemma all_fresh_app_l (cs1 cs2 : list call) (s : GDIObject * World) :
  all_fresh (cs1 ++ cs2) s → all_fresh cs1 s.
Proof.
  revert s. induction cs1 as [|c cs1 IH]; intros s; cbn [app all_fresh].
  - done.
  - intros [Hc Hcs]. split; [exact Hc | by apply IH].
Qed.

(** X4. When the handle given to the constructor is null or allocated,
    and every later [operator=] is given null or an allocated handle other
    than the one the wrapper holds, then after every call of the lifetime
    the wrapper holds null or an allocated handle. *)
Theorem fresh_handles_stay_live (h : HGDIOBJ) (cs1 cs2 : list call) (w : World) :
  h = nullptr ∨ h ∈ live w →
  all_fresh (cs1 ++ cs2) (constructor h w) →
  owned_is_live (exec (run_calls cs1) (constructor h w)).
Proof.
  intros Hh Hcs. apply calls_keep_owned_live.
  - intros Hn. destruct Hh as [Hh|Hh]; [done | exact Hh].
  - by apply all_fresh_app_l with cs2.
Qed.

Lemma fresh_handles_stay_live_witness :
  owned_is_live
    (exec (run_calls [CallAssign 7; CallBool])
       (constructor 42 (mkWorld ({[42]} ∪ {[7]}) []))).
Proof.
  apply (fresh_handles_stay_live 42 [CallAssign 7; CallBool] [CallDestroy]
           (mkWorld ({[42]} ∪ {[7]}) [])).
  - right. apply elem_of_union_l. by apply elem_of_singleton.
  - cbn [app all_fresh hands_over_fresh]. split; [|done].
    right. split; [|discriminate].
    apply elem_of_union_r. by apply elem_of_singleton.
Defined.

(** X5. Whatever non-null handle a wrapper owns, [operator=] with that
    same handle calls the release primitive on it and stores it again: the
    wrapper owns the handle afterwards, and the handle is not allocated. *)
Theorem assign_owned_handle_releases_it (s : GDIObject * World) :
  owned s ≠ nullptr →
  owned (exec (operator_assign (owned s)) s) = owned s
  ∧ releases (since s.2 (exec (operator_assign (owned s)) s).2) = [owned s]
  ∧ owned s ∉ live (exec (operator_assign (owned s)) s).2.
Proof.
  intros Hn. split; [apply assign_owned|split].
  - rewrite (since_app _ _ _ (assign_trace (owned s) s)).
    by destruct (decide (owned s = nullptr)).
  - rewrite assign_live, destroy_live.
    destruct (decide (owned s = nullptr)); [done|].
    rewrite elem_of_difference. intros [_ Hout]. apply Hout.
    by apply elem_of_singleton.
Qed.

Lemma assign_owned_handle_releases_it_witness :
  owned (exec (operator_assign 7) (mkGDIObject 7, mkWorld {[7]} [])) = 7
  ∧ releases (since (mkWorld {[7]} [])
                (exec (operator_assign 7) (mkGDIObject 7, mkWorld {[7]} [])).2) = [7]
  ∧ 7 ∉ live (exec (operator_assign 7) (mkGDIObject 7, mkWorld {[7]} [])).2.
Proof.
  apply (assign_owned_handle_releases_it (mkGDIObject 7, mkWorld {[7]} [])).
  discriminate.
Defined.

(** ** Several wrappers and one handle *)

Lemma step_SConstruct (a : nat) (h : HGDIOBJ) (σ : gmap nat GDIObject * World) :
  σ.1 !! a = None →
  step (SConstruct a h) σ = Some (<[a := mkGDIObject h]> σ.1, record (EvStore h) σ.2).
Proof. intros Ha. unfold step. cbn. by rewrite Ha. Qed.

Lemma step_SDestruct (a : nat) (o : GDIObject) (σ : gmap nat GDIObject * World) :
  σ.1 !! a = Some o →
  step (SDestruct a) σ = Some (delete a σ.1, destructor (o, σ.2)).
Proof. intros Ha. unfold step. cbn. by rewrite Ha. Qed.

Lemma destructor_trace (s : GDIObject * World) :
  trace (destructor s) = trace s.2 ++ destroy_events s.
Proof. apply (destroy_trace s). Qed.

Lemma destructor_live (s : GDIObject * World) :
  live (destructor s) = live s.2 ∖ list_to_set (releases (destroy_events s)).
Proof.
  change (destructor s) with (exec destroy s).2. rewrite destroy_live.
  unfold destroy_events. destruct (decide (owned s = nullptr)); cbn [releases list_to_set].
  - by rewrite difference_empty_L.
  - by rewrite union_empty_r_L.
Qed.

(** X6. The deleted copy constructor does not keep a handle from having
    two owners: a second wrapper constructed from the value the conversion
    [operator HGDIOBJ] of a first one returns owns the same handle, and the
    destruction of the two calls the release primitive on it twice. *)
Theorem converted_handle_is_released_twice
    (a b : nat) (o : GDIObject) (σ : gmap nat GDIObject * World) :
  σ.1 !! a = Some o → σ.1 !! b = None →
  result operator_HGDIOBJ (o, σ.2) ≠ nullptr →
  ∃ σ',
    run [SConstruct b (result operator_HGDIOBJ (o, σ.2)); SDestruct b; SDestruct a] σ
    = Some σ'
    ∧ releases (since σ.2 σ'.2)
      = [result operator_HGDIOBJ (o, σ.2); result operator_HGDIOBJ (o, σ.2)].
Proof.
  intros Ha Hb Hn. destruct o as [h].
  change (result operator_HGDIOBJ (mkGDIObject h, σ.2)) with h in *.
  assert (Hab : b ≠ a) by congruence.
  cbn [run]. rewrite (step_SConstruct b h σ Hb).
  rewrite (step_SDestruct b (mkGDIObject h)) by apply lookup_insert_eq.
  cbn [fst snd].
  rewrite (step_SDestruct a (mkGDIObject h))
    by (cbn [fst]; by rewrite lookup_delete_ne, lookup_insert_ne).
  eexists. split; [reflexivity|]. cbn [fst snd].
  apply f_equal with (f := releases)
    (y := [EvStore h; EvDeleteObject h; EvStore nullptr;
           EvDeleteObject h; EvStore nullptr]).
  apply since_app. rewrite destructor_trace. cbn [snd].
  rewrite destructor_trace. unfold destroy_events, owned.
  cbn [fst snd record trace _hGDIObj].
  destruct (decide (h = nullptr)); [done|]. by rewrite <- !app_assoc.
Qed.

Lemma converted_handle_is_released_twice_witness :
  ∃ σ',
    run [SConstruct 2%nat (result operator_HGDIOBJ (mkGDIObject 42, source_and_destination.2));
         SDestruct 2%nat; SDestruct 0%nat] source_and_destination
    = Some σ'
    ∧ releases (since source_and_destination.2 σ'.2)
      = [result operator_HGDIOBJ (mkGDIObject 42, source_and_destination.2);
         result operator_HGDIOBJ (mkGDIObject 42, source_and_destination.2)].
Proof.
  apply (converted_handle_is_released_twice 0%nat 2%nat (mkGDIObject 42)
           source_and_destination).
  - reflexivity.
  - reflexivity.
  - discriminate.
Defined.

(** X7. A statement frees only a handle that a wrapper owns: a handle
    allocated before a statement and not after it is the non-null handle
    owned, before the statement, by the wrapper the statement is on. *)
Theorem step_frees_only_owned
    (st : stmt) (σ σ' : gmap nat GDIObject * World) (h : HGDIOBJ) :
  step st σ = Some σ' → h ∈ live σ.2 → h ∉ live σ'.2 →
  h ≠ nullptr ∧ ∃ a, σ.1 !! a = Some (mkGDIObject h)
                     ∧ (st = SDestruct a ∨ ∃ c, st = SCall a c).
Proof.
  destruct st as [a h0|a b|a b|a c|a]; unfold step;
    rewrite ?callable_call; cbn [member_of callable access_of deleted negb];
    try discriminate.
  - destruct (σ.1 !! a); [discriminate|]. intros [= <-] Hin Hout. done.
  - destruct (σ.1 !! a) as [o|] eqn:Ha; [|discriminate].
    intros [= <-] Hin Hout. cbn [snd] in Hout.
    destruct (run_call_effect c (o, σ.2)) as (evs & _ & L & H).
    rewrite L in Hout. cbn [snd] in Hout.
    destruct H as [[E _]|[E Hn]]; rewrite E in Hout.
    + exfalso. apply Hout. cbn [list_to_set]. by rewrite difference_empty_L.
    + assert (Hh : h = owned (o, σ.2)).
      { destruct (decide (h = owned (o, σ.2))) as [|Hne]; [done|].
        exfalso. apply Hout. rewrite elem_of_difference. split; [done|].
        cbn [list_to_set]. rewrite union_empty_r_L. by rewrite elem_of_singleton. }
      split; [by rewrite Hh|]. exists a. split; [|right; by exists c].
      rewrite Hh. by destruct o.
  - destruct (σ.1 !! a) as [o|] eqn:Ha; [|discriminate].
    intros [= <-] Hin Hout. cbn [snd] in Hout.
    rewrite destructor_live in Hout. unfold destroy_events in Hout. cbn [snd] in Hout.
    destruct (decide (owned (o, σ.2) = nullptr)) as [Hn|Hn]; cbn [releases list_to_set] in Hout.
    + exfalso. apply Hout. by rewrite difference_empty_L.
    + assert (Hh : h = owned (o, σ.2)).
      { destruct (decide (h = owned (o, σ.2))) as [|Hne]; [done|].
        exfalso. apply Hout. rewrite elem_of_difference. split; [done|].
        rewrite union_empty_r_L. by rewrite elem_of_singleton. }
      split; [by rewrite Hh|]. exists a. split; [|by left].
      rewrite Hh. by destruct o.
Qed.

Lemma step_frees_only_owned_witness :
  42 ≠ nullptr
  ∧ ∃ a, source_and_destination.1 !! a = Some (mkGDIObject 42)
         ∧ (SCall 0%nat CallDestroy = SDestruct a
            ∨ ∃ c, SCall 0%nat CallDestroy = SCall a c).
Proof.
  apply (step_frees_only_owned (SCall 0%nat CallDestroy) source_and_destination
           (<[0%nat := mkGDIObject nullptr]> source_and_destination.1,
            mkWorld ({[42]} ∖ {[42]}) [EvDeleteObject 42; EvStore nullptr]) 42).
  - reflexivity.
  - change (42 ∈ ({[42]} : gset Z)). by apply elem_of_singleton.
  - change (42 ∉ ({[42]} ∖ {[42]} : gset Z)).
    rewrite elem_of_difference. intros [_ Hout]. apply Hout. by apply elem_of_singleton.
Defined.

(** ** Exclusive ownership is kept *)

(** Wrapper [a], owning [ho] or not alive, comes to own [hn], where [hn]
    is null, [ho] itself, or unowned; and [ho] is freed or nothing is. *)
Lemma exclusive_insert (m : gmap nat GDIObject) (L L' : gset Z) (a : nat)
    (ho hn : HGDIOBJ) :
  exclusive m L →
  m !! a = Some (mkGDIObject ho) ∨ (m !! a = None ∧ ho = nullptr) →
  hn = nullptr ∨ (hn = ho ∧ L' = L)
    ∨ (hn ∈ L ∧ ∀ b, m !! b ≠ Some (mkGDIObject hn)) →
  L' = L ∨ L' = L ∖ {[ho]} →
  exclusive (<[a := mkGDIObject hn]> m) L'.
Proof.
  intros Hex Ha Hhn HL a0 h0 Hlk Hn0.
  assert (Hlive : ∀ h, h ∈ L → h ≠ ho → h ∈ L').
  { intros h Hin Hne. destruct HL as [->| ->]; [done|].
    rewrite elem_of_difference, elem_of_singleton. done. }
  assert (Hown : ho ≠ nullptr → m !! a = Some (mkGDIObject ho)).
  { intros Hne. by destruct Ha as [Ha|[_ Ha]]. }
  destruct (decide (a0 = a)) as [->|Hne].
  - rewrite lookup_insert_eq in Hlk. injection Hlk as <-.
    destruct Hhn as [Hnull|[[-> ->]|[Hin Hfree]]]; [done| |].
    + destruct (Hex a ho (Hown Hn0) Hn0) as [Hin Huniq]. split; [done|].
      intros b Hb. destruct (decide (b = a)) as [|Hba]; [done|].
      rewrite lookup_insert_ne in Hb by done. by apply Huniq.
    + split.
      * apply Hlive; [done|]. intros ->. by apply (Hfree a), Hown.
      * intros b Hb. destruct (decide (b = a)) as [|Hba]; [done|].
        rewrite lookup_insert_ne in Hb by done. by destruct (Hfree b).
  - rewrite lookup_insert_ne in Hlk by done.
    destruct (Hex a0 h0 Hlk Hn0) as [Hin Huniq]. split.
    + apply Hlive; [done|]. intros ->. apply Hne. symmetry. by apply Huniq, Hown.
    + intros b Hb. destruct (decide (b = a)) as [->|Hba]; [|
        rewrite lookup_insert_ne in Hb by done; by apply Huniq].
      rewrite lookup_insert_eq in Hb. injection Hb as ->.
      destruct Hhn as [Hnull|[[-> _]|[_ Hfree]]]; [done| |].
      * by apply Huniq, Hown.
      * by destruct (Hfree a0).
Qed.

Lemma exclusive_delete (m : gmap nat GDIObject) (L L' : gset Z) (a : nat)
    (ho : HGDIOBJ) :
  exclusive m L → m !! a = Some (mkGDIObject ho) →
  L' = L ∨ L' = L ∖ {[ho]} →
  exclusive (delete a m) L'.
Proof.
  intros Hex Ha HL a0 h0 Hlk Hn0.
  destruct (decide (a0 = a)) as [->|Hne]; [by rewrite lookup_delete_eq in Hlk|].
  rewrite lookup_delete_ne in Hlk by done.
  destruct (Hex a0 h0 Hlk Hn0) as [Hin Huniq]. split.
  - destruct HL as [->| ->]; [done|].
    rewrite elem_of_difference, elem_of_singleton. split; [done|].
    intros ->. apply Hne. symmetry. by apply Huniq.
  - intros b Hb. destruct (decide (b = a)) as [->|Hba];
      [by rewrite lookup_delete_eq in Hb|].
    rewrite lookup_delete_ne in Hb by done. by apply Huniq.
Qed.

Lemma destroy_live_cases (s : GDIObject * World) :
  live (exec destroy s).2 = live s.2 ∨ live (exec destroy s).2 = live s.2 ∖ {[owned s]}.
Proof. rewrite destroy_live. destruct (decide (owned s = nullptr)); auto. Qed.

Lemma step_keeps_exclusive (st : stmt) (σ σ' : gmap nat GDIObject * World) :
  exclusive σ.1 (live σ.2) → hands_over_unowned st σ → step st σ = Some σ' →
  exclusive σ'.1 (live σ'.2).
Proof.
  intros Hex Hfresh.
  destruct st as [a h|a b|a b|a c|a]; unfold step;
    rewrite ?callable_call; cbn [member_of callable access_of deleted negb];
    try discriminate.
  - destruct (σ.1 !! a) as [o|] eqn:Ha; [discriminate|]. intros [= <-].
    cbn [fst snd constructor record live].
    apply (exclusive_insert σ.1 (live σ.2) (live σ.2) a nullptr h); auto.
    destruct Hfresh as [Hnull|Hun]; auto.
  - destruct (σ.1 !! a) as [[ho]|] eqn:Ha; [|discriminate]. intros [= <-].
    cbn [fst snd]. rewrite GDIObject_eta.
    destruct c as [|h| | |];
      try (rewrite exec_conversion by auto;
           apply (exclusive_insert σ.1 (live σ.2) (live σ.2) a ho ho); by auto);
      cbn [run_call].
    + rewrite destroy_owned.
      apply (exclusive_insert σ.1 (live σ.2) _ a ho nullptr); auto.
      apply (destroy_live_cases (mkGDIObject ho, σ.2)).
    + rewrite assign_owned, assign_live.
      apply (exclusive_insert σ.1 (live σ.2) _ a ho h); auto.
      * destruct Hfresh as [Hnull|Hun]; auto.
      * apply (destroy_live_cases (mkGDIObject ho, σ.2)).
  - destruct (σ.1 !! a) as [[ho]|] eqn:Ha; [|discriminate]. intros [= <-].
    cbn [fst snd].
    apply (exclusive_delete σ.1 (live σ.2) _ a ho); auto.
    apply (destroy_live_cases (mkGDIObject ho, σ.2)).
Qed.

(** X8. Exclusive ownership is kept by a client that hands over unowned
    handles only: if every non-null handle owned is allocated and owned by
    one wrapper, and every handle given to a constructor or to [operator=]
    is null or allocated and owned by no wrapper, the same holds after the
    program. *)
Theorem run_keeps_exclusive (p : list stmt) (σ σ' : gmap nat GDIObject * World) :
  exclusive σ.1 (live σ.2) → all_unowned p σ → run p σ = Some σ' →
  exclusive σ'.1 (live σ'.2).
Proof.
  revert σ. induction p as [|st p IH]; intros σ Hex Hp; cbn [run].
  - by intros [= <-].
  - cbn [all_unowned] in Hp. destruct Hp as [Hst Hp].
    destruct (step st σ) as [σ1|] eqn:Hstep; [|discriminate].
    apply IH; [|exact Hp]. by apply (step_keeps_exclusive st σ σ1).
Qed.

Lemma run_keeps_exclusive_witness :
  ∃ σ',
    run [SConstruct 1%nat 7; SCall 0%nat CallDestroy]
      (<[0%nat := mkGDIObject 42]> ∅, mkWorld ({[42]} ∪ {[7]}) [])
    = Some σ'
    ∧ exclusive σ'.1 (live σ'.2).
Proof.
  eexists. split; [reflexivity|].
  apply (run_keeps_exclusive [SConstruct 1%nat 7; SCall 0%nat CallDestroy]
           (<[0%nat := mkGDIObject 42]> ∅, mkWorld ({[42]} ∪ {[7]}) [])).
  - intros a h Hlk Hn. cbn [fst snd live] in *.
    destruct (decide (a = 0%nat)) as [->|Hne].
    + rewrite lookup_insert_eq in Hlk. injection Hlk as <-. split.
      * apply elem_of_union_l. by apply elem_of_singleton.
      * intros b Hb. destruct (decide (b = 0%nat)) as [|Hb0]; [done|].
        rewrite lookup_insert_ne in Hb by done. by rewrite lookup_empty in Hb.
    + rewrite lookup_insert_ne in Hlk by done. by rewrite lookup_empty in Hlk.
  - cbn [all_unowned hands_over_unowned]. split.
    + right. cbn [fst snd live]. split.
      * apply elem_of_union_r. by apply elem_of_singleton.
      * intros b Hb. destruct (decide (b = 0%nat)) as [->|Hb0].
        -- rewrite lookup_insert_eq in Hb. discriminate.
        -- rewrite lookup_insert_ne in Hb by done. by rewrite lookup_empty in Hb.
    + rewrite step_SConstruct by reflexivity. split; [exact I|].
      by destruct (step (SCall 0%nat CallDestroy) _).
  - reflexivity.
Defined.

(** ** The owned handle since its adoption *)





